(** * hikari: connections between kanji compounds by shared component kanji

    A shallow embedding of [hikari.py]: [has_kanji], [separate_words],
    [relate_words], the two readers from the content of their file, and
    [main] up to the object it saves, with the properties of its indexes.

    Python values are modelled as follows.
    - A [str] is the list of its Unicode code points, each an [N].
    - A [set] of strings is a [gset]; a [dict] is a [gmap].  Python compares
      both without regard to order, and the program only observes their order
      through [sorted], which fixes it.
    - An operation that can raise [KeyError] returns an [option]; [None]
      stands for the raised exception.  Where a run can end in several ways
      the result is a sum, with the way it stopped on the left.
    - Files are read and written outside the model: a reader takes the
      content of its file, and [main] gives the object that is saved. *)

From stdpp Require Import gmap sets list sorting.
From Stdlib Require Import NArith.

Local Open Scope N_scope.

(** A Python string: its code points in order. *)
Abbreviation str := (list N).
(** [Dict[str, Set[str]]]. *)
Abbreviation index := (gmap (list N) (gset (list N))).

(** ** Regular expressions of the shape [[lo-hi]] *)

Module Re.

(** A character class made of one range, both bounds included. *)
Record char_class := CharClass { class_lo : N; class_hi : N }.

Definition class_matches (cls : char_class) (c : N) : bool :=
  (class_lo cls <=? c) && (c <=? class_hi cls).

(** [re.search(cls, s)]: the position of the leftmost character of [s] in
    the class, or [None] when there is no match. *)
Fixpoint search (cls : char_class) (s : str) : option nat :=
  match s with
  | [] => None
  | c :: s' => if class_matches cls c then Some O else S <$> search cls s'
  end.

End Re.

(** The class [[一-龯]]: U+4E00 to U+9FAF. *)
Definition kanji_class : Re.char_class := Re.CharClass 0x4E00 0x9FAF.

(** [bool(word and re.search(r"[一-龯]", word))]: an empty [word] is falsy and
    is the value of the conjunction; otherwise the value is the match object
    (truthy) or [None] (falsy). *)
Definition has_kanji (word : str) : bool :=
  match word with
  | [] => false
  | _ :: _ => match Re.search kanji_class word with
              | Some _ => true
              | None => false
              end
  end.

(** [[w for w in words if has_kanji(w)]], the filter of both readers. *)
Definition kanji_words (words : list str) : list str :=
  filter (λ w, has_kanji w = true) words.

(** ** separate_words *)

(** [components[char].add(word)] on a [defaultdict(set)]: a missing key is
    first bound to the empty set. *)
Definition add_compound (word : str) (components : index) (char : N) : index :=
  if has_kanji [char]
  then <[ [char] := default ∅ (components !! [char]) ∪ {[ word ]} ]> components
  else components.

Definition separate_words (words : list str) : index :=
  foldl (λ components word, foldl (add_compound word) components word) ∅ words.

(** ** relate_words *)

(** [k in w] on strings: [k] occurs in [w] as a contiguous substring. *)
Fixpoint str_in (k w : str) : bool :=
  match w with
  | [] => bool_decide (k = [])
  | _ :: w' => bool_decide (k `prefix_of` w) || str_in k w'
  end.

(** [{word: set() for word in words}] *)
Definition empty_relations (words : list str) : index :=
  foldl (λ related word, <[ word := ∅ ]> related) ∅ words.

(** The body of the inner loop, for one item [(kanji, compounds)] of
    [components]: [related_words[word]] raises [KeyError] on a missing key. *)
Definition update_related (word kanji : str) (compounds : gset str)
    (acc : option index) : option index :=
  related_words ← acc;
  if str_in kanji word
  then rel_words ← related_words !! word;
       Some (<[ word := rel_words ∪ compounds ]> related_words)
  else Some related_words.

(** The two nested loops: the state of [related_words] before the self-links
    are removed. *)
Definition accumulate (words : list str) (components : index) : option index :=
  foldl (λ acc word, map_fold (update_related word) acc components)
        (Some (empty_relations words)) words.

(** [rel_words.remove(word)]: [set.remove] raises [KeyError] when the element
    is absent. *)
Definition set_remove (word : str) (rel_words : gset str) : option (gset str) :=
  if decide (word ∈ rel_words) then Some (rel_words ∖ {[ word ]}) else None.

Definition remove_self_link (word : str) (rel_words : gset str)
    (acc : option index) : option index :=
  related_words ← acc;
  rel_words' ← set_remove word rel_words;
  Some (<[ word := rel_words' ]> related_words).

Definition remove_self_links (related_words : index) : option index :=
  map_fold remove_self_link (Some related_words) related_words.

Definition relate_words (words : list str) (components : index) : option index :=
  related_words ← accumulate words components;
  remove_self_links related_words.

(** ** main, between reading the words and saving the result *)

(** Python's order on strings: lexicographic on code points, a proper prefix
    first. *)
Fixpoint str_leb (a b : str) : bool :=
  match a, b with
  | [], _ => true
  | _ :: _, [] => false
  | x :: a', y :: b' =>
      if x <? y then true else if y <? x then false else str_leb a' b'
  end.

Definition str_le (a b : str) : Prop := str_leb a b = true.

Global Instance str_le_dec : RelDecision str_le.
Proof. intros a b. unfold str_le. apply _. Defined.

(** [words.sort()] and [sorted(...)] on strings. *)
Definition sort_words (words : list str) : list str := merge_sort str_le words.

(** [sorted(list(w))] for a set [w]. *)
Definition sorted (w : gset str) : list str := sort_words (elements w).

Record output := Output {
  out_components : gmap str (list str);
  out_related_words : gmap str (list str)
}.

Definition main (words : list str) : option output :=
  let words := sort_words words in
  let components := separate_words words in
  related_words ← relate_words words components;
  Some (Output (sorted <$> components) (sorted <$> related_words)).

(** ** The delimiter check of main *)

(** [re.search] for a character class made of several ranges: the position
    of the leftmost character of [s] in one of them. *)
Fixpoint search_ranges (ranges : list Re.char_class) (s : str) : option nat :=
  match s with
  | [] => None
  | c :: s' =>
      if existsb (λ cls, Re.class_matches cls c) ranges
      then Some O else S <$> search_ranges ranges s'
  end.

(** The class [[一-龯ぁ-んァ-ン]]: U+4E00 to U+9FAF, U+3041 to U+3093 and
    U+30A1 to U+30F3. *)
Definition japanese_class : list Re.char_class :=
  [Re.CharClass 0x4E00 0x9FAF; Re.CharClass 0x3041 0x3093;
   Re.CharClass 0x30A1 0x30F3].

(** The condition [delimiter and re.search(r"[一-龯ぁ-んァ-ン]", delimiter)]:
    [None] and the empty string are falsy. *)
Definition delimiter_is_japanese (delimiter : option str) : bool :=
  match delimiter with
  | None => false
  | Some [] => false
  | Some (c :: d) =>
      match search_ranges japanese_class (c :: d) with
      | Some _ => true
      | None => false
      end
  end.

(** ** The readers *)

(** How a run ends early: [sys.exit] with a status, or an exception. *)
Inductive stop := Exit (status : N) | ValueError | KeyError.

(** Python's whitespace ([str.isspace]), on which [str.split()] splits. *)
Definition is_space (c : N) : bool :=
  ((0x09 <=? c) && (c <=? 0x0D)) || ((0x1C <=? c) && (c <=? 0x20)) ||
  (c =? 0x85) || (c =? 0xA0) || (c =? 0x1680) ||
  ((0x2000 <=? c) && (c <=? 0x200A)) || (c =? 0x2028) || (c =? 0x2029) ||
  (c =? 0x202F) || (c =? 0x205F) || (c =? 0x3000).

(** [s.split()]: the maximal runs of characters that are not whitespace;
    [cur] is the run being read. *)
Fixpoint split_whitespace_from (cur s : str) : list str :=
  match s with
  | [] => match cur with [] => [] | _ :: _ => [cur] end
  | c :: s' =>
      if is_space c
      then match cur with
           | [] => split_whitespace_from [] s'
           | _ :: _ => cur :: split_whitespace_from [] s'
           end
      else split_whitespace_from (cur ++ [c]) s'
  end.

(** [s.split(sep)] for a non-empty [sep]: the pieces between the occurrences
    of [sep], found from the left without overlap; [skip] counts the
    characters of a found occurrence still to pass, [cur] is the piece being
    read. *)
Fixpoint split_sep_from (sep : str) (skip : nat) (cur s : str) : list str :=
  match s with
  | [] => [cur]
  | c :: s' =>
      match skip with
      | S n => split_sep_from sep n cur s'
      | O =>
          if bool_decide (sep `prefix_of` s)
          then cur :: split_sep_from sep (length sep - 1) [] s'
          else split_sep_from sep O (cur ++ [c]) s'
      end
  end.

(** [text.split(delimiter)]: an empty separator raises [ValueError]. *)
Definition str_split (text : str) (delimiter : option str) : stop + list str :=
  match delimiter with
  | None => inr (split_whitespace_from [] text)
  | Some [] => inl ValueError
  | Some (c :: sep) => inr (split_sep_from (c :: sep) O [] text)
  end.

(** [read_from_txt], from the text of the file. *)
Definition read_from_txt (text : str) (delimiter : option str) : stop + list str :=
  match str_split text delimiter with
  | inl e => inl e
  | inr words => inr (kanji_words words)
  end.

(** A card of the export, as far as the reader looks at it: the value of
    [card.get("spelling")], [None] for a card without the field. *)
Record card := Card { spelling : option str }.

(** [has_kanji] on the value of [card.get("spelling")]: [None] is falsy. *)
Definition has_kanji_opt (word : option str) : bool :=
  match word with
  | None => false
  | Some w => has_kanji w
  end.

(** [read_from_jpdb], from the value of [data.get("cards_vocabulary_jp_en")]:
    without the key the program leaves through [sys.exit(data.keys())], whose
    status is 1. *)
Definition read_from_jpdb (cards : option (list card)) : stop + list str :=
  match cards with
  | None => inl (Exit 1)
  | Some cards =>
      inr (omap id (filter (λ w, has_kanji_opt w = true) (spelling <$> cards)))
  end.

(** ** main, from the content of the input file to the saved object *)



(** * Vocabulary of the statements *)

(** The designated range of logographic characters, U+4E00 to U+9FAF. *)
Definition in_kanji_range (c : N) : Prop := 0x4E00 ≤ c ∧ c ≤ 0x9FAF.

Global Instance in_kanji_range_dec c : Decision (in_kanji_range c).
Proof. unfold in_kanji_range. apply _. Defined.

(** Blocks of characters that are not kanji: Latin letters, digits and
    punctuation (Basic Latin to Latin Extended-B), general punctuation, CJK
    punctuation with hiragana and katakana, and the full-width and half-width
    forms. *)
Definition non_kanji_block (c : N) : Prop :=
  c ≤ 0x024F ∨ (0x2000 ≤ c ∧ c ≤ 0x206F) ∨ (0x3000 ≤ c ∧ c ≤ 0x30FF) ∨
  (0xFF00 ≤ c ∧ c ≤ 0xFFEF).

(** [components[char]] read as a set, empty for a missing key. *)
Definition compounds_at (components : index) (key : str) : gset str :=
  default ∅ (components !! key).

(** The logographic characters of a word, in order of occurrence. *)
Definition kanji_chars (w : str) : list N := filter in_kanji_range w.

(** What the scan of [components] gathers for [word]: the union of the
    values whose key occurs in [word]. *)
Definition gathered (components : index) (word : str) : gset str :=
  ⋃ (snd <$> filter (λ kc, str_in kc.1 word = true) (map_to_list components)).

(** The removal loop succeeds exactly when every key is in its own value. *)
Definition self_linked (related : index) : Prop :=
  map_Forall (λ (w : str) (s : gset str), w ∈ s) related.

Global Instance self_linked_dec related : Decision (self_linked related).
Proof. unfold self_linked. apply _. Defined.

Definition without_self (w : str) (s : gset str) : option (gset str) :=
  Some (s ∖ {[ w ]}).

(** The strategy that the spec recommends for the relation index, in its
    words: for each word, take only the distinct logographic characters
    present in it, look each up directly in the component index, unite the
    results, then remove the word itself. *)
Definition distinct_logographic (w : str) : list N :=
  remove_dups (filter in_kanji_range w).

Definition related_by_lookup (components : index) (w : str) : gset str :=
  (⋃ ((λ c, compounds_at components [c]) <$> distinct_logographic w)) ∖ {[ w ]}.

Definition relate_words_by_lookup (words : list str) (components : index) : index :=
  foldl (λ related w, <[ w := related_by_lookup components w ]> related) ∅ words.

(** [k] occurs in [w] as a contiguous substring. *)
Definition occurs_in (k w : str) : Prop := ∃ pre post, w = pre ++ k ++ post.

(** Two words share a kanji. *)
Definition share_kanji (w y : str) : Prop :=
  ∃ c, in_kanji_range c ∧ c ∈ w ∧ c ∈ y.

(** [sep.join(pieces)] *)
Fixpoint str_join (sep : str) (pieces : list str) : str :=
  match pieces with
  | [] => []
  | [p] => p
  | p :: ps => p ++ sep ++ str_join sep ps
  end.

(** A character in one of the ranges of the delimiter check. *)
Definition in_japanese_class (c : N) : Prop :=
  in_kanji_range c ∨ (0x3041 ≤ c ∧ c ≤ 0x3093) ∨ (0x30A1 ≤ c ∧ c ≤ 0x30F3).

(** No occurrence of [sep] starts inside [cur] when [s] follows it. *)
Definition no_start (sep cur s : str) : Prop :=
  ∀ pre post, cur = pre ++ post → post ≠ [] → ¬ sep `prefix_of` post ++ s.

(** ** The words of the docstring's example *)

Module Sample.
Definition kesa : str := [0x4ECA; 0x671D].            (* 今朝 *)
Definition konban : str := [0x4ECA; 0x6669].          (* 今晩 *)
Definition choushoku : str := [0x671D; 0x98DF].       (* 朝食 *)
Definition taberu : str := [0x98DF; 0x3079; 0x308B].  (* 食べる *)
Definition tanoshii : str := [0x697D; 0x3057; 0x3044]. (* 楽しい *)
Definition kana : str := [0x304B; 0x306A].            (* かな *)
Definition ima : str := [0x4ECA].                     (* 今 *)
Definition asa : str := [0x671D].                     (* 朝 *)
Definition ban : str := [0x6669].                     (* 晩 *)
Definition shoku : str := [0x98DF].                   (* 食 *)
Definition raku : str := [0x697D].                    (* 楽 *)
Definition words : list str := [kesa; konban; choushoku; taberu; tanoshii].
End Sample.

(** ** The scenario of the spec *)

Module Scenario.
Import Sample.

Definition english : str :=                             (* english! *)
  [0x65; 0x6E; 0x67; 0x6C; 0x69; 0x73; 0x68; 0x21].

Definition raw_words : list str :=
  [kesa; konban; choushoku; taberu; tanoshii; kana; english].

(** The components of the scenario as the spec lists them. *)
Definition listed_components : gmap str (list str) :=
  list_to_map [(ima, [konban; kesa]); (asa, [konban; choushoku]);
               (ban, [konban]); (shoku, [choushoku; taberu]);
               (raku, [tanoshii])].

(** The same with [kesa], the word that contains [asa], under [asa]. *)
Definition components : gmap str (list str) :=
  list_to_map [(ima, [konban; kesa]); (asa, [kesa; choushoku]);
               (ban, [konban]); (shoku, [choushoku; taberu]);
               (raku, [tanoshii])].

Definition related_words : gmap str (list str) :=
  list_to_map [(konban, [kesa]); (kesa, [konban; choushoku]);
               (choushoku, [kesa; taberu]); (taberu, [choushoku]);
               (tanoshii, [])].

End Scenario.

(** * Properties *)

(** ** Classification *)

Lemma class_matches_true cls c :
  Re.class_matches cls c = true ↔ Re.class_lo cls ≤ c ∧ c ≤ Re.class_hi cls.
Proof.
  unfold Re.class_matches.
  rewrite andb_true_iff, !N.leb_le. reflexivity.
Qed.

Lemma search_is_Some cls s :
  is_Some (Re.search cls s) ↔ Exists (λ c, Re.class_matches cls c = true) s.
Proof.
  induction s as [|c s IH]; simpl.
  - rewrite Exists_nil. split; [intros [? [=]] | tauto].
  - rewrite Exists_cons. destruct (Re.class_matches cls c) eqn:Hc.
    + split; eauto.
    + rewrite fmap_is_Some, IH. split; [tauto | intros [[=] | ?]; tauto].
Qed.

Lemma has_kanji_Exists w : has_kanji w = true ↔ Exists in_kanji_range w.
Proof.
  assert (Hm : Exists (λ c, Re.class_matches kanji_class c = true) w
               ↔ Exists in_kanji_range w).
  { apply Exists_proper; [|done]. intros c. apply class_matches_true. }
  rewrite <- Hm, <- search_is_Some. unfold has_kanji.
  destruct w as [|c w].
  - split; [discriminate | by intros [? [=]]].
  - destruct (Re.search kanji_class (c :: w)); split; eauto; try done.
Qed.

Lemma has_kanji_char c : has_kanji [c] = true ↔ in_kanji_range c.
Proof. rewrite has_kanji_Exists, Exists_cons, Exists_nil. tauto. Qed.

Lemma has_kanji_elem w :
  has_kanji w = true ↔ ∃ c, c ∈ w ∧ has_kanji [c] = true.
Proof.
  rewrite has_kanji_Exists, Exists_exists.
  by setoid_rewrite has_kanji_char.
Qed.

(** ** The component index *)

Lemma add_compound_lookup (word : str) (m : index) (c : N) (k : str) :
  add_compound word m c !! k =
    if decide (has_kanji [c] = true ∧ k = [c])
    then Some (compounds_at m k ∪ {[ word ]}) else m !! k.
Proof.
  unfold add_compound, compounds_at.
  destruct (has_kanji [c]) eqn:Hc.
  - rewrite lookup_insert. repeat case_decide; naive_solver.
  - case_decide; naive_solver.
Qed.

Lemma elem_of_add_compounds (word : str) (chars : str) (m : index) (k w : str) :
  w ∈ compounds_at (foldl (add_compound word) m chars) k ↔
  w ∈ compounds_at m k ∨
  (w = word ∧ ∃ c, k = [c] ∧ c ∈ chars ∧ has_kanji [c] = true).
Proof.
  revert m. induction chars as [|c chars IH]; intros m; simpl.
  - split; [tauto | intros [? | (_ & c & _ & []%elem_of_nil & _)]; done].
  - rewrite IH. unfold compounds_at at 1. rewrite add_compound_lookup.
    setoid_rewrite elem_of_cons.
    case_decide as Hk; simpl; [rewrite elem_of_union, elem_of_singleton|];
      naive_solver.
Qed.

Lemma is_Some_add_compounds (word chars : str) (m : index) (k : str) :
  is_Some (foldl (add_compound word) m chars !! k) ↔
  is_Some (m !! k) ∨ ∃ c, k = [c] ∧ c ∈ chars ∧ has_kanji [c] = true.
Proof.
  revert m. induction chars as [|c chars IH]; intros m; simpl.
  - split; [tauto | intros [? | (c & _ & []%elem_of_nil & _)]; done].
  - rewrite IH, add_compound_lookup. setoid_rewrite elem_of_cons.
    case_decide as Hk; [|naive_solver].
    split; [naive_solver | eauto].
Qed.

Lemma elem_of_separate_from (m : index) (words : list str) (k w : str) :
  w ∈ compounds_at
        (foldl (λ components word, foldl (add_compound word) components word)
               m words) k ↔
  w ∈ compounds_at m k ∨
  ∃ c, k = [c] ∧ has_kanji [c] = true ∧ c ∈ w ∧ w ∈ words.
Proof.
  revert m. induction words as [|word words IH]; intros m; simpl.
  - split; [tauto | intros [? | (c & _ & _ & _ & []%elem_of_nil)]; done].
  - rewrite IH, elem_of_add_compounds. setoid_rewrite elem_of_cons.
    naive_solver.
Qed.

Lemma is_Some_separate_from (m : index) (words : list str) (k : str) :
  is_Some (foldl (λ components word, foldl (add_compound word) components word)
                 m words !! k) ↔
  is_Some (m !! k) ∨
  ∃ c w, k = [c] ∧ has_kanji [c] = true ∧ c ∈ w ∧ w ∈ words.
Proof.
  revert m. induction words as [|word words IH]; intros m; simpl.
  - split; [tauto | intros [? | (c & w & _ & _ & _ & []%elem_of_nil)]; done].
  - rewrite IH, is_Some_add_compounds. setoid_rewrite elem_of_cons.
    naive_solver.
Qed.

Lemma elem_of_separate_words (words : list str) (k w : str) :
  w ∈ compounds_at (separate_words words) k ↔
  ∃ c, k = [c] ∧ has_kanji [c] = true ∧ c ∈ w ∧ w ∈ words.
Proof.
  unfold separate_words. rewrite elem_of_separate_from.
  unfold compounds_at at 1. rewrite lookup_empty. simpl. set_solver.
Qed.

Lemma is_Some_separate_words (words : list str) (k : str) :
  is_Some (separate_words words !! k) ↔
  ∃ c w, k = [c] ∧ has_kanji [c] = true ∧ c ∈ w ∧ w ∈ words.
Proof.
  unfold separate_words. rewrite is_Some_separate_from, lookup_empty.
  split; [intros [[? [=]] | ?]; done | eauto].
Qed.

Lemma separate_words_lookup_Some (words : list str) (k : str) (S : gset str) :
  separate_words words !! k = Some S →
  ∃ c, k = [c] ∧ has_kanji [c] = true ∧
       ∀ w, w ∈ S ↔ c ∈ w ∧ w ∈ words.
Proof.
  intros HS.
  destruct (proj1 (is_Some_separate_words words k)) as (c & w0 & -> & Hc & _);
    [eauto|].
  exists c. split_and!; [done..|]. intros w.
  assert (HSc : S = compounds_at (separate_words words) [c]).
  { unfold compounds_at. by rewrite HS. }
  rewrite HSc, elem_of_separate_words. naive_solver.
Qed.

(** ** The relation index *)

(** On a key of one character, [in] is membership of that character. *)
Lemma str_in_char (c : N) (w : str) : str_in [c] w = true ↔ c ∈ w.
Proof.
  induction w as [|a w IH]; simpl.
  - rewrite elem_of_nil. split; [discriminate | tauto].
  - rewrite orb_true_iff, bool_decide_eq_true, IH, elem_of_cons.
    split.
    + intros [Hp | ?]; [left | by right].
      by apply prefix_cons_inv_1 in Hp.
    + intros [-> | ?]; [left | by right].
      apply prefix_cons, prefix_nil.
Qed.

Lemma elem_of_gathered (components : index) (word y : str) :
  y ∈ gathered components word ↔
  ∃ kanji compounds,
    components !! kanji = Some compounds ∧ str_in kanji word = true ∧
    y ∈ compounds.
Proof.
  unfold gathered. rewrite elem_of_union_list. split.
  - intros (X & HX & Hy).
    apply list_elem_of_fmap in HX as ([kanji compounds] & -> & Hin).
    apply list_elem_of_filter in Hin as [Hk Hin].
    apply elem_of_map_to_list in Hin. by exists kanji, compounds.
  - intros (kanji & compounds & Hl & Hk & Hy).
    exists compounds. split; [|done].
    apply list_elem_of_fmap. exists (kanji, compounds). split; [done|].
    apply list_elem_of_filter. split; [done|]. by apply elem_of_map_to_list.
Qed.

Lemma gathered_empty (word : str) : gathered ∅ word = ∅.
Proof.
  apply set_eq. intros y. rewrite elem_of_gathered.
  setoid_rewrite lookup_empty. set_solver.
Qed.

Lemma gathered_insert (m : index) (word kanji : str) (compounds : gset str) :
  m !! kanji = None →
  gathered (<[ kanji := compounds ]> m) word =
    if str_in kanji word then gathered m word ∪ compounds else gathered m word.
Proof.
  intros Hfresh. apply set_eq. intros y.
  destruct (str_in kanji word) eqn:Hk;
    rewrite ?elem_of_union, !elem_of_gathered;
    setoid_rewrite lookup_insert_Some.
  - split.
    + intros (k & S & [[<- <-] | [? ?]] & ? & ?); [by right | left; eauto].
    + intros [(k & S & ? & ? & ?) | ?].
      * exists k, S. split_and!; [right; split; congruence | done..].
      * exists kanji, compounds. eauto.
  - split.
    + intros (k & S & [[<- <-] | [? ?]] & ? & ?); [congruence | eauto].
    + intros (k & S & ? & ? & ?).
      exists k, S. split_and!; [right; split; congruence | done..].
Qed.

(** One pass over the items of [components] for a [word] that is a key. *)
Lemma scan_components (word : str) (components related : index) (s : gset str) :
  related !! word = Some s →
  map_fold (update_related word) (Some related) components =
    Some (<[ word := s ∪ gathered components word ]> related).
Proof.
  intros Hword.
  apply (map_fold_weak_ind
           (λ r m, r = Some (<[ word := s ∪ gathered m word ]> related))).
  - rewrite gathered_empty, (right_id_L ∅ (∪)). by rewrite insert_id.
  - intros kanji compounds m r Hfresh ->.
    rewrite gathered_insert by done. unfold update_related. simpl.
    destruct (str_in kanji word); [|done].
    rewrite lookup_insert_eq. simpl.
    by rewrite insert_insert_eq, (assoc_L (∪)).
Qed.

(** A dictionary filled by one assignment per word of a list. *)
Section FoldInsert.
Context {V : Type} (f : str → V).

Lemma foldl_insert_lookup (m : gmap str V) (words : list str) (w : str) :
  foldl (λ acc word, <[ word := f word ]> acc) m words !! w =
    if decide (w ∈ words) then Some (f w) else m !! w.
Proof.
  revert m. induction words as [|w0 words IH]; intros m; cbn [foldl].
  - case_decide as Hw; [by apply elem_of_nil in Hw | done].
  - rewrite IH. destruct (decide (w = w0)) as [-> | Hne].
    + rewrite lookup_insert_eq, (decide_True _ _ (list_elem_of_here w0 words)).
      by case_decide.
    + rewrite lookup_insert_ne by done.
      repeat case_decide; set_solver.
Qed.

End FoldInsert.

Lemma empty_relations_lookup (words : list str) (w : str) :
  empty_relations words !! w = if decide (w ∈ words) then Some ∅ else None.
Proof.
  unfold empty_relations.
  by rewrite (foldl_insert_lookup (λ _, ∅)), lookup_empty.
Qed.

(** The outer loop, from any state in which the remaining words are keys. *)
Lemma accumulate_from (components : index) (ws : list str) (related : index) :
  (∀ w, w ∈ ws → is_Some (related !! w)) →
  ∃ acc,
    foldl (λ acc word, map_fold (update_related word) acc components)
          (Some related) ws = Some acc ∧
    ∀ w, acc !! w =
         if decide (w ∈ ws)
         then (λ s, s ∪ gathered components w) <$> related !! w
         else related !! w.
Proof.
  revert related. induction ws as [|w0 ws IH]; intros related Hkeys; cbn [foldl].
  - exists related. split; [done|]. intros w.
    case_decide as Hw; [by apply elem_of_nil in Hw | done].
  - destruct (Hkeys w0) as [s0 Hs0]; [left|].
    rewrite (scan_components _ _ _ _ Hs0).
    destruct (IH (<[ w0 := s0 ∪ gathered components w0 ]> related))
      as (acc & -> & Hacc).
    { intros w Hw. destruct (decide (w = w0)) as [-> | Hne].
      - rewrite lookup_insert_eq. eauto.
      - rewrite lookup_insert_ne by done. apply Hkeys. by right. }
    exists acc. split; [done|]. intros w. rewrite Hacc.
    destruct (decide (w = w0)) as [-> | Hne].
    + rewrite lookup_insert_eq, Hs0,
        (decide_True _ _ (list_elem_of_here w0 ws)). simpl.
      case_decide; [|done]. f_equal. set_solver.
    + rewrite lookup_insert_ne by done.
      repeat case_decide; set_solver.
Qed.

Lemma accumulate_lookup (words : list str) (components : index) :
  ∃ acc,
    accumulate words components = Some acc ∧
    ∀ w, acc !! w =
         if decide (w ∈ words) then Some (gathered components w) else None.
Proof.
  destruct (accumulate_from components words (empty_relations words))
    as (acc & Hacc & Hlookup).
  { intros w Hw. rewrite empty_relations_lookup, decide_True by done. eauto. }
  exists acc. split; [done|]. intros w.
  rewrite Hlookup, empty_relations_lookup.
  case_decide; [|done]. simpl. f_equal. set_solver.
Qed.

Lemma remove_self_links_from (start m : index) :
  map_fold remove_self_link (Some start) m =
    if decide (self_linked m)
    then Some (map_imap without_self m ∪ start) else None.
Proof.
  revert m.
  apply (map_fold_weak_ind
           (λ r m, r = if decide (self_linked m)
                       then Some (map_imap without_self m ∪ start) else None)).
  - rewrite decide_True by apply map_Forall_empty.
    by rewrite map_imap_empty, (left_id_L ∅ (∪)).
  - intros w s m' r Hfresh ->. unfold self_linked.
    destruct (decide (map_Forall (λ (w : str) (s : gset str), w ∈ s) m'))
      as [Hall | Hnot]; simpl.
    + unfold remove_self_link, set_remove. simpl.
      destruct (decide (w ∈ s)) as [Hw | Hw]; simpl.
      * rewrite decide_True by (by apply map_Forall_insert).
        rewrite (map_imap_insert_Some _ _ _ _ (s ∖ {[ w ]})) by done.
        by rewrite insert_union_l.
      * rewrite decide_False; [done|].
        rewrite map_Forall_insert by done. tauto.
    + rewrite decide_False; [done|].
      rewrite map_Forall_insert by done. tauto.
Qed.

Lemma remove_self_links_Some (related : index) :
  self_linked related →
  ∃ r, remove_self_links related = Some r ∧
       ∀ w, r !! w = (λ s, s ∖ {[ w ]}) <$> related !! w.
Proof.
  intros Hall. unfold remove_self_links.
  rewrite remove_self_links_from, decide_True by done.
  eexists. split; [done|]. intros w.
  rewrite lookup_union, map_lookup_imap.
  by destruct (related !! w).
Qed.

Lemma remove_self_links_None (related : index) :
  ¬ self_linked related → remove_self_links related = None.
Proof.
  intros Hnot. unfold remove_self_links.
  by rewrite remove_self_links_from, decide_False.
Qed.

Lemma self_linked_accumulate (words : list str) (components acc : index) :
  accumulate words components = Some acc →
  self_linked acc ↔ Forall (λ w, w ∈ gathered components w) words.
Proof.
  intros Hacc.
  destruct (accumulate_lookup words components) as (acc' & Hacc' & Hlookup).
  assert (acc' = acc) as -> by congruence.
  unfold self_linked. rewrite Forall_forall, map_Forall_lookup. split.
  - intros Hall w Hw. apply Hall. by rewrite Hlookup, decide_True.
  - intros Hall w s. rewrite Hlookup. case_decide; [|done].
    intros [= <-]. by apply Hall.
Qed.

(** [relate_words] on any [components]. *)
Lemma relate_words_Some (words : list str) (components : index) :
  Forall (λ w, w ∈ gathered components w) words →
  ∃ r, relate_words words components = Some r ∧
       ∀ w, r !! w =
            if decide (w ∈ words)
            then Some (gathered components w ∖ {[ w ]}) else None.
Proof.
  intros Hall.
  destruct (accumulate_lookup words components) as (acc & Hacc & Hlookup).
  destruct (remove_self_links_Some acc) as (r & Hr & Hrl).
  { by apply (self_linked_accumulate words components). }
  exists r. split.
  - unfold relate_words. by rewrite Hacc.
  - intros w. rewrite Hrl, Hlookup. by case_decide.
Qed.

Lemma relate_words_None (words : list str) (components : index) :
  ¬ Forall (λ w, w ∈ gathered components w) words →
  relate_words words components = None.
Proof.
  intros Hnot.
  destruct (accumulate_lookup words components) as (acc & Hacc & Hlookup).
  unfold relate_words. rewrite Hacc. simpl.
  apply remove_self_links_None.
  by rewrite (self_linked_accumulate words components).
Qed.

(** ** The relation index over the component index of the same words *)

Lemma elem_of_gathered_separate (words : list str) (w y : str) :
  y ∈ gathered (separate_words words) w ↔
  y ∈ words ∧ ∃ c, has_kanji [c] = true ∧ c ∈ w ∧ c ∈ y.
Proof.
  rewrite elem_of_gathered. split.
  - intros (kanji & compounds & Hl & Hk & Hy).
    apply separate_words_lookup_Some in Hl as (c & -> & Hc & HS).
    apply str_in_char in Hk. apply HS in Hy as [? ?]. eauto.
  - intros (Hy & c & Hc & Hcw & Hcy).
    destruct (proj2 (is_Some_separate_words words [c])) as [S HS];
      [by exists c, y|].
    exists [c], S. split_and!; [done | by apply str_in_char |].
    destruct (separate_words_lookup_Some _ _ _ HS) as (c' & [= <-] & _ & HS').
    by apply HS'.
Qed.

Lemma self_gathered (words : list str) (w : str) :
  w ∈ gathered (separate_words words) w ↔ w ∈ words ∧ has_kanji w = true.
Proof. rewrite elem_of_gathered_separate, has_kanji_elem. naive_solver. Qed.

Lemma Forall_self_gathered (words : list str) :
  Forall (λ w, w ∈ gathered (separate_words words) w) words ↔
  Forall (λ w, has_kanji w = true) words.
Proof.
  rewrite !Forall_forall. setoid_rewrite self_gathered. naive_solver.
Qed.

Lemma kanji_chars_keys (words : list str) (w : str) :
  w ∈ words →
  Forall2 (λ c S, separate_words words !! [c] = Some S)
          (kanji_chars w)
          ((λ c, compounds_at (separate_words words) [c]) <$> kanji_chars w).
Proof.
  intros Hw. apply Forall2_fmap_r, Forall_Forall2_diag, Forall_forall.
  intros c [Hc%has_kanji_char Hcw]%list_elem_of_filter.
  destruct (proj2 (is_Some_separate_words words [c])) as [S HS];
    [by exists c, w|].
  unfold compose, compounds_at. by rewrite HS.
Qed.

Lemma gathered_separate_union (words : list str) (w : str) :
  gathered (separate_words words) w =
    ⋃ ((λ c, compounds_at (separate_words words) [c]) <$> kanji_chars w).
Proof.
  apply set_eq. intros y.
  rewrite elem_of_gathered_separate, elem_of_union_list. split.
  - intros (Hy & c & Hc & Hcw & Hcy).
    exists (compounds_at (separate_words words) [c]). split.
    + apply list_elem_of_fmap. exists c. split; [done|].
      apply list_elem_of_filter. by rewrite <- has_kanji_char.
    + apply elem_of_separate_words. eauto.
  - intros (X & (c & -> & [Hc Hcw]%list_elem_of_filter)%list_elem_of_fmap & Hy).
    apply has_kanji_char in Hc.
    apply elem_of_separate_words in Hy as (c' & [= <-] & _ & Hcy & Hy).
    eauto.
Qed.

(** Two indexes with the same keys and the same members are equal. *)
Lemma index_eq (m1 m2 : index) :
  (∀ k, is_Some (m1 !! k) ↔ is_Some (m2 !! k)) →
  (∀ k w, w ∈ compounds_at m1 k ↔ w ∈ compounds_at m2 k) →
  m1 = m2.
Proof.
  intros Hkeys Hmem. apply map_eq. intros k.
  specialize (Hkeys k). pose proof (Hmem k) as Hk. unfold compounds_at in Hk.
  destruct (m1 !! k) as [S1|], (m2 !! k) as [S2|]; simpl in Hk.
  - f_equal. by apply set_eq.
  - destruct Hkeys as [[? [=]] _]. eauto.
  - destruct Hkeys as [_ [? [=]]]. eauto.
  - done.
Qed.

(** ** The order on strings *)

Global Instance str_le_total : Total str_le.
Proof.
  intros a. unfold str_le. induction a as [|x a IH]; intros [|y b]; simpl; eauto.
  destruct (N.ltb_spec x y), (N.ltb_spec y x); eauto; lia.
Qed.

Lemma sorted_Sorted (s : gset str) : Sorted str_le (sorted s).
Proof. apply (Sorted_merge_sort str_le). Qed.

Lemma main_values_Sorted (words : list str) (o : output) :
  main words = Some o →
  map_Forall (λ _ v, Sorted str_le v) (out_components o) ∧
  map_Forall (λ _ v, Sorted str_le v) (out_related_words o).
Proof.
  unfold main. intros Hmain.
  destruct (relate_words _ _) as [r|]; [|done].
  injection Hmain as <-. simpl.
  split; intros k v [s [<- _]]%lookup_fmap_Some; apply sorted_Sorted.
Qed.

(** * The claims *)

(** C1, as stated, fails: on a word without kanji the word is absent from its
    own accumulated set, [set.remove] raises [KeyError], and [relate_words]
    returns nothing. *)
Lemma relate_words_raises_on_kana :
  has_kanji Sample.kana = false ∧
  accumulate [Sample.kana] (separate_words [Sample.kana])
    = Some {[ Sample.kana := ∅ ]} ∧
  set_remove Sample.kana ∅ = None ∧
  relate_words [Sample.kana] (separate_words [Sample.kana]) = None.
Proof. split_and!; by vm_compute. Qed.

(** C1, amended: [relate_words words (separate_words words)] returns a
    relation index without raising exactly when every word of the sequence
    contains a kanji; the removal of a word from its own accumulated set is
    a required deletion, which raises when the word is absent from it. *)
Theorem relate_words_returns_iff (words : list str) :
  (is_Some (relate_words words (separate_words words)) ↔
   Forall (λ w, has_kanji w = true) words) ∧
  (∀ (w : str) (s : gset str), w ∉ s → set_remove w s = None).
Proof.
  split.
  - rewrite <- Forall_self_gathered. split.
    + intros Hsome.
      destruct (decide (Forall (λ w, w ∈ gathered (separate_words words) w) words))
        as [? | Hnot]; [done|].
      apply relate_words_None in Hnot. rewrite Hnot in Hsome.
      by destruct Hsome.
    + intros Hall. apply relate_words_Some in Hall as (r & -> & _). eauto.
  - intros w s Hw. unfold set_remove. by rewrite decide_False.
Qed.

Lemma relate_words_returns_iff_witness :
  is_Some (relate_words Sample.words (separate_words Sample.words)).
Proof.
  apply (proj2 (proj1 (relate_words_returns_iff Sample.words))).
  repeat constructor.
Defined.

(** C2, as stated, fails: under the key 朝 the program puts 今朝 and 朝食, the
    two words that contain it, not 今晩 and 朝食. *)
Lemma main_sample_not_listed :
  main Sample.words ≠
    Some (Output Scenario.listed_components Scenario.related_words) ∧
  (o ← main Sample.words; out_components o !! Sample.asa) =
    Some [Sample.kesa; Sample.choushoku] ∧
  Scenario.listed_components !! Sample.asa =
    Some [Sample.konban; Sample.choushoku].
Proof.
  assert (Hasa : (o ← main Sample.words; out_components o !! Sample.asa) =
                 Some [Sample.kesa; Sample.choushoku]) by (by vm_compute).
  assert (Hlisted : Scenario.listed_components !! Sample.asa =
                    Some [Sample.konban; Sample.choushoku]) by (by vm_compute).
  split_and!; [|done|done].
  intros Hmain. rewrite Hmain in Hasa. clear Hmain.
  change (Scenario.listed_components !! Sample.asa =
          Some [Sample.kesa; Sample.choushoku]) in Hasa.
  rewrite Hlisted in Hasa. clear Hlisted.
  injection Hasa as Hword. discriminate Hword.
Qed.

(** C2, amended: the readers keep the five words with a kanji, and on them the
    program gives components 今 ↦ [今晩, 今朝], 朝 ↦ [今朝, 朝食], 晩 ↦ [今晩],
    食 ↦ [朝食, 食べる], 楽 ↦ [楽しい] and related words 今晩 ↦ [今朝],
    今朝 ↦ [今晩, 朝食], 朝食 ↦ [今朝, 食べる], 食べる ↦ [朝食], 楽しい ↦ [],
    every value sorted by code point. *)
Theorem main_sample_output :
  kanji_words Scenario.raw_words = Sample.words ∧
  main Sample.words = Some (Output Scenario.components Scenario.related_words) ∧
  map_Forall (λ _ v, Sorted str_le v) Scenario.components ∧
  map_Forall (λ _ v, Sorted str_le v) Scenario.related_words.
Proof.
  assert (Hmain : main Sample.words =
                  Some (Output Scenario.components Scenario.related_words))
    by (by vm_compute).
  split_and!; [by vm_compute | done | |];
    by apply (main_values_Sorted _ _ Hmain).
Qed.

(** C3: when every word has a kanji, the relation set of a word [w] of the
    sequence is the union of the component sets of the kanji occurring in
    [w], without [w] itself. *)
Theorem relate_words_union_of_components (words : list str) (w : str) :
  Forall (λ w, has_kanji w = true) words →
  w ∈ words →
  ∃ (r : index) (sets : list (gset str)),
    relate_words words (separate_words words) = Some r ∧
    Forall2 (λ c S, separate_words words !! [c] = Some S)
            (filter in_kanji_range w) sets ∧
    r !! w = Some ((⋃ sets) ∖ {[ w ]}).
Proof.
  intros Hall Hw.
  apply Forall_self_gathered, relate_words_Some in Hall as (r & Hr & Hlookup).
  exists r, ((λ c, compounds_at (separate_words words) [c]) <$> kanji_chars w).
  split_and!; [done | by apply kanji_chars_keys |].
  by rewrite Hlookup, decide_True, gathered_separate_union.
Qed.

Lemma relate_words_union_of_components_witness :
  ∃ (r : index) (sets : list (gset str)),
    relate_words Sample.words (separate_words Sample.words) = Some r ∧
    Forall2 (λ c S, separate_words Sample.words !! [c] = Some S)
            (filter in_kanji_range Sample.kesa) sets ∧
    r !! Sample.kesa = Some ((⋃ sets) ∖ {[ Sample.kesa ]}).
Proof.
  apply (relate_words_union_of_components Sample.words Sample.kesa).
  - repeat constructor.
  - unfold Sample.words. set_solver.
Defined.

(** C4: in the index made by [separate_words], a word is in the set keyed by
    a character exactly when the word is in the input, the character is in
    the kanji range and occurs in the word; so every key is one kanji, every
    value is non-empty, and every word is under every kanji it contains. *)
Theorem separate_words_membership (words : list str) :
  (∀ (c : N) (w : str),
     (∃ S, separate_words words !! [c] = Some S ∧ w ∈ S) ↔
     w ∈ words ∧ in_kanji_range c ∧ c ∈ w) ∧
  (∀ (k : str) (S : gset str),
     separate_words words !! k = Some S →
     (∃ c, k = [c] ∧ in_kanji_range c) ∧ S ≠ ∅) ∧
  (∀ (w : str) (c : N),
     w ∈ words → c ∈ w → in_kanji_range c →
     ∃ S, separate_words words !! [c] = Some S ∧ w ∈ S).
Proof.
  assert (Hmem : ∀ (c : N) (w : str),
     (∃ S, separate_words words !! [c] = Some S ∧ w ∈ S) ↔
     w ∈ words ∧ in_kanji_range c ∧ c ∈ w).
  { intros c w. rewrite <- has_kanji_char. split.
    - intros (S & HS & Hw).
      apply separate_words_lookup_Some in HS as (c' & [= <-] & Hc & HS).
      apply HS in Hw. tauto.
    - intros (Hw & Hc & Hcw).
      destruct (proj2 (is_Some_separate_words words [c])) as [S HS];
        [by exists c, w|].
      exists S. split; [done|].
      destruct (separate_words_lookup_Some _ _ _ HS) as (c' & [= <-] & _ & HS').
      by apply HS'. }
  split_and!; [done | |].
  - intros k S HS.
    destruct (proj1 (is_Some_separate_words words k)) as (c & w & -> & Hc & Hcw & Hw);
      [by eauto|].
    split; [exists c; by rewrite <- has_kanji_char|].
    assert (w ∈ S); [|set_solver].
    destruct (proj2 (Hmem c w)) as (S' & HS' & ?);
      [by rewrite <- has_kanji_char | congruence].
  - intros w c Hw Hcw Hc. by apply Hmem.
Qed.

Lemma separate_words_membership_witness :
  ∃ S, separate_words Sample.words !! Sample.asa = Some S ∧ Sample.kesa ∈ S.
Proof.
  apply (proj2 (proj2 (separate_words_membership Sample.words))).
  - unfold Sample.words. set_solver.
  - unfold Sample.kesa. set_solver.
  - split; by vm_compute.
Defined.

(** C5: two distinct words of a sequence in which every word has a kanji, if
    they share a kanji, are each in the relation set of the other. *)
Theorem relate_words_symmetric (words : list str) (x y : str) :
  Forall (λ w, has_kanji w = true) words →
  x ∈ words → y ∈ words → x ≠ y →
  (∃ c, in_kanji_range c ∧ c ∈ x ∧ c ∈ y) →
  ∃ (r : index) (sx sy : gset str),
    relate_words words (separate_words words) = Some r ∧
    r !! x = Some sx ∧ y ∈ sx ∧
    r !! y = Some sy ∧ x ∈ sy.
Proof.
  intros Hall Hx Hy Hne (c & Hc%has_kanji_char & Hcx & Hcy).
  apply Forall_self_gathered, relate_words_Some in Hall as (r & Hr & Hlookup).
  exists r, (gathered (separate_words words) x ∖ {[ x ]}),
            (gathered (separate_words words) y ∖ {[ y ]}).
  rewrite !Hlookup, !decide_True by done.
  split_and!; [done | done | | done |].
  - apply elem_of_difference. split.
    + apply elem_of_gathered_separate. eauto.
    + by intros ?%elem_of_singleton.
  - apply elem_of_difference. split.
    + apply elem_of_gathered_separate. eauto.
    + by intros ?%elem_of_singleton.
Qed.

Lemma relate_words_symmetric_witness :
  ∃ (r : index) (sx sy : gset str),
    relate_words Sample.words (separate_words Sample.words) = Some r ∧
    r !! Sample.kesa = Some sx ∧ Sample.choushoku ∈ sx ∧
    r !! Sample.choushoku = Some sy ∧ Sample.kesa ∈ sy.
Proof.
  apply (relate_words_symmetric Sample.words Sample.kesa Sample.choushoku).
  - repeat constructor.
  - unfold Sample.words. set_solver.
  - unfold Sample.words. set_solver.
  - discriminate.
  - exists 0x671D. split_and!.
    + split; by vm_compute.
    + unfold Sample.kesa. set_solver.
    + unfold Sample.choushoku. set_solver.
Defined.

(** C6: [has_kanji w] is true exactly when [w] is non-empty and one of its
    characters has a code point from U+4E00 to U+9FAF, both included; on a
    string of one character it decides whether that character is in the
    range; Latin letters, digits, punctuation and kana are never in it, and
    the empty string gives [false]. *)
Theorem has_kanji_range :
  (∀ w : str, has_kanji w = true ↔ w ≠ [] ∧ ∃ c, c ∈ w ∧ in_kanji_range c) ∧
  (∀ c : N, has_kanji [c] = true ↔ in_kanji_range c) ∧
  (∀ c : N, non_kanji_block c → has_kanji [c] = false) ∧
  has_kanji [] = false.
Proof.
  split_and!.
  - intros w. rewrite has_kanji_Exists, Exists_exists. split.
    + intros (c & Hc & Hr). split; [|by eauto].
      intros ->. by apply elem_of_nil in Hc.
    + intros [_ ?]. done.
  - apply has_kanji_char.
  - intros c Hblock. apply not_true_is_false. rewrite has_kanji_char.
    unfold non_kanji_block, in_kanji_range in *. lia.
  - reflexivity.
Qed.

Lemma has_kanji_range_witness :
  non_kanji_block 0x304B ∧ has_kanji [0x304B] = false.
Proof.
  assert (H : non_kanji_block 0x304B).
  { unfold non_kanji_block. right. right. left. split; by vm_compute. }
  split; [exact H|].
  exact (proj1 (proj2 (proj2 has_kanji_range)) 0x304B H).
Defined.

(** C7: on words that all have a kanji, the strategy by direct lookup gives
    the relation index that the scan of the whole component index gives. *)
Theorem relate_words_by_lookup_equiv (words : list str) :
  Forall (λ w, has_kanji w = true) words →
  relate_words words (separate_words words) =
    Some (relate_words_by_lookup words (separate_words words)).
Proof.
  intros Hall.
  apply Forall_self_gathered, relate_words_Some in Hall as (r & -> & Hlookup).
  f_equal. apply map_eq. intros w.
  unfold relate_words_by_lookup.
  rewrite Hlookup, (foldl_insert_lookup (related_by_lookup _)), lookup_empty.
  case_decide; [|done]. f_equal.
  unfold related_by_lookup. rewrite gathered_separate_union. f_equal.
  apply set_eq. intros y. rewrite !elem_of_union_list.
  unfold distinct_logographic, kanji_chars.
  by setoid_rewrite list_elem_of_fmap; setoid_rewrite elem_of_remove_dups.
Qed.

Lemma relate_words_by_lookup_equiv_witness :
  relate_words Sample.words (separate_words Sample.words) =
    Some (relate_words_by_lookup Sample.words (separate_words Sample.words)).
Proof.
  apply (relate_words_by_lookup_equiv Sample.words).
  repeat constructor.
Defined.

(** C8: [separate_words] gives equal indexes on a sequence of words and on
    any permutation of it. *)
Theorem separate_words_permutation (words words' : list str) :
  words ≡ₚ words' → separate_words words = separate_words words'.
Proof.
  intros Hperm. apply index_eq.
  - intros k. rewrite !is_Some_separate_words.
    by setoid_rewrite Hperm.
  - intros k w. rewrite !elem_of_separate_words.
    by setoid_rewrite Hperm.
Qed.

Lemma separate_words_permutation_witness :
  [Sample.kesa; Sample.konban] ≡ₚ [Sample.konban; Sample.kesa] ∧
  separate_words [Sample.kesa; Sample.konban] =
  separate_words [Sample.konban; Sample.kesa].
Proof.
  split; [apply perm_swap|].
  apply separate_words_permutation, perm_swap.
Defined.

(** C9: when every word has a kanji, the keys of the relation index are
    exactly the distinct words of the sequence, one key for a word however
    often it occurs, and a word that shares no kanji with another word stays
    as a key, with the empty set as its value. *)
Theorem relate_words_keys (words : list str) :
  Forall (λ w, has_kanji w = true) words →
  ∃ r : index,
    relate_words words (separate_words words) = Some r ∧
    dom r = list_to_set words ∧
    size r = length (remove_dups words) ∧
    ∀ w, w ∈ words →
         (∀ y c, y ∈ words → in_kanji_range c → c ∈ w → c ∈ y → y = w) →
         r !! w = Some ∅.
Proof.
  intros Hall.
  apply Forall_self_gathered, relate_words_Some in Hall as (r & Hr & Hlookup).
  assert (Hdom : dom r = list_to_set words).
  { apply set_eq. intros w.
    rewrite elem_of_dom, Hlookup, elem_of_list_to_set.
    case_decide; split; eauto; done. }
  exists r. split_and!; [done | done | |].
  - rewrite <- size_dom, Hdom.
    rewrite <- (size_list_to_set (C := gset str) (remove_dups words))
      by apply NoDup_remove_dups.
    f_equal. apply set_eq. intros w.
    by rewrite !elem_of_list_to_set, elem_of_remove_dups.
  - intros w Hw Halone. rewrite Hlookup, decide_True by done. f_equal.
    apply set_eq. intros y.
    rewrite elem_of_difference, elem_of_gathered_separate, elem_of_singleton.
    split; [|by intros ?%elem_of_empty].
    intros [(Hy & c & Hc%has_kanji_char & Hcw & Hcy) Hne].
    destruct Hne. by apply (Halone y c).
Qed.

Lemma relate_words_keys_witness :
  ∃ r : index,
    relate_words [Sample.tanoshii; Sample.kesa; Sample.tanoshii]
                 (separate_words [Sample.tanoshii; Sample.kesa; Sample.tanoshii])
      = Some r ∧
    dom r = list_to_set [Sample.tanoshii; Sample.kesa; Sample.tanoshii] ∧
    size r = length (remove_dups [Sample.tanoshii; Sample.kesa; Sample.tanoshii]) ∧
    ∀ w, w ∈ [Sample.tanoshii; Sample.kesa; Sample.tanoshii] →
         (∀ y c, y ∈ [Sample.tanoshii; Sample.kesa; Sample.tanoshii] →
                 in_kanji_range c → c ∈ w → c ∈ y → y = w) →
         r !! w = Some ∅.
Proof.
  apply (relate_words_keys [Sample.tanoshii; Sample.kesa; Sample.tanoshii]).
  repeat constructor.
Defined.

(** C10: when every word has a kanji and [components] is the index of the same
    words, every word is in its own accumulated set before the self-links are
    removed, so no removal meets an absent element and [relate_words]
    returns. *)
Theorem self_link_present_before_removal (words : list str) :
  Forall (λ w, has_kanji w = true) words →
  ∃ acc,
    accumulate words (separate_words words) = Some acc ∧
    (∀ w, w ∈ words → ∃ s, acc !! w = Some s ∧ w ∈ s) ∧
    (∀ w s, acc !! w = Some s → set_remove w s = Some (s ∖ {[ w ]})) ∧
    is_Some (relate_words words (separate_words words)).
Proof.
  intros Hall.
  destruct (accumulate_lookup words (separate_words words))
    as (acc & Hacc & Hlookup).
  assert (Hself : self_linked acc).
  { apply (self_linked_accumulate _ _ _ Hacc). by apply Forall_self_gathered. }
  exists acc. split_and!; [done | | |].
  - intros w Hw. rewrite Hlookup, decide_True by done.
    eexists. split; [done|]. apply self_gathered. split; [done|].
    by apply (proj1 (Forall_forall _ _) Hall).
  - intros w s Hs. unfold set_remove.
    by rewrite decide_True by (by apply (Hself w s)).
  - unfold relate_words. rewrite Hacc. simpl.
    destruct (remove_self_links_Some acc Hself) as (r & -> & _). eauto.
Qed.

Lemma self_link_present_before_removal_witness :
  ∃ acc,
    accumulate Sample.words (separate_words Sample.words) = Some acc ∧
    (∀ w, w ∈ Sample.words → ∃ s, acc !! w = Some s ∧ w ∈ s) ∧
    (∀ w s, acc !! w = Some s → set_remove w s = Some (s ∖ {[ w ]})) ∧
    is_Some (relate_words Sample.words (separate_words Sample.words)).
Proof.
  apply (self_link_present_before_removal Sample.words).
  repeat constructor.
Defined.

(** * Further properties of the code *)

(** ** Helper lemmas *)

Lemma str_in_occurs (k w : str) : str_in k w = true ↔ occurs_in k w.
Proof.
  unfold occurs_in. induction w as [|a w IH]; simpl.
  - rewrite bool_decide_eq_true. split.
    + intros ->. by exists [], [].
    + intros (pre & post & Heq). symmetry in Heq.
      apply app_eq_nil in Heq as [_ Heq]. by apply app_eq_nil in Heq as [? _].
  - rewrite orb_true_iff, bool_decide_eq_true, IH. split.
    + intros [[post ->] | (pre & post & ->)].
      * by exists [], post.
      * by exists (a :: pre), post.
    + intros ([|b pre] & post & Heq); simpl in Heq.
      * left. by exists post.
      * injection Heq as <- ->. right. by exists pre, post.
Qed.

Lemma elem_of_gathered_occurs (components : index) (word y : str) :
  y ∈ gathered components word ↔
  ∃ k S, components !! k = Some S ∧ occurs_in k word ∧ y ∈ S.
Proof.
  rewrite elem_of_gathered. by setoid_rewrite str_in_occurs.
Qed.

Lemma relate_words_cases (words : list str) (components : index) :
  (Forall (λ w, w ∈ gathered components w) words ∧
   ∃ r, relate_words words components = Some r ∧
        ∀ w, r !! w =
             if decide (w ∈ words)
             then Some (gathered components w ∖ {[ w ]}) else None) ∨
  (¬ Forall (λ w, w ∈ gathered components w) words ∧
   relate_words words components = None).
Proof.
  destruct (decide (Forall (λ w, w ∈ gathered components w) words))
    as [Hall | Hnot].
  - left. split; [done|]. by apply relate_words_Some.
  - right. split; [done|]. by apply relate_words_None.
Qed.

Lemma relate_words_same_elements (ws1 ws2 : list str) (components : index) :
  (∀ w, w ∈ ws1 ↔ w ∈ ws2) →
  relate_words ws1 components = relate_words ws2 components.
Proof.
  intros Hsame.
  assert (Hall : Forall (λ w, w ∈ gathered components w) ws1 ↔
                 Forall (λ w, w ∈ gathered components w) ws2).
  { rewrite !Forall_forall. by setoid_rewrite Hsame. }
  destruct (relate_words_cases ws1 components) as [[H1 (r1 & -> & Hr1)] | [H1 ->]],
           (relate_words_cases ws2 components) as [[H2 (r2 & -> & Hr2)] | [H2 ->]];
    try tauto.
  f_equal. apply map_eq. intros w. rewrite Hr1, Hr2.
  destruct (decide (w ∈ ws1)) as [Hw | Hw], (decide (w ∈ ws2)) as [Hw' | Hw'];
    try done; exfalso; naive_solver.
Qed.

(** ** The relation index *)


Lemma relate_words_returns_ok (words : list str) :
  Forall (λ w, has_kanji w = true) words →
  ∃ r, relate_words words (separate_words words) = Some r.
Proof.
  intros Hall.
  apply Forall_self_gathered, relate_words_Some in Hall as (r & Hr & _).
  by exists r.
Qed.

(** X1: whatever [components] holds, when [relate_words] returns, no word is
    in its own relation set, and the keys are exactly the input words. *)
Theorem relate_words_no_self_link (words : list str) (components r : index) :
  relate_words words components = Some r →
  dom r = list_to_set words ∧
  ∀ w s, r !! w = Some s → w ∉ s.
Proof.
  intros Hr.
  destruct (relate_words_cases words components)
    as [[_ (r' & Hr' & Hlookup)] | [_ Hnone]]; [|congruence].
  assert (r' = r) as -> by congruence. split.
  - apply set_eq. intros w.
    rewrite elem_of_dom, Hlookup, elem_of_list_to_set.
    case_decide; split; eauto; done.
  - intros w s. rewrite Hlookup. case_decide; [|done].
    intros [= <-]. set_solver.
Qed.

Lemma relate_words_no_self_link_witness :
  ∃ r : index,
    relate_words Sample.words (separate_words Sample.words) = Some r ∧
    dom r = list_to_set Sample.words ∧
    ∀ w s, r !! w = Some s → w ∉ s.
Proof.
  destruct (relate_words_returns_ok Sample.words) as [r Hr];
    [repeat constructor|].
  exists r. split; [exact Hr|].
  exact (relate_words_no_self_link _ _ _ Hr).
Defined.

(** X2: on words that all have a kanji, [y] is in the relation set of [w]
    exactly when both are input words, they differ, and they share a
    kanji. *)
Theorem relate_words_related_iff (words : list str) :
  Forall (λ w, has_kanji w = true) words →
  ∃ r : index,
    relate_words words (separate_words words) = Some r ∧
    ∀ w y, (∃ s, r !! w = Some s ∧ y ∈ s) ↔
           w ∈ words ∧ y ∈ words ∧ y ≠ w ∧ share_kanji w y.
Proof.
  intros Hall.
  apply Forall_self_gathered, relate_words_Some in Hall as (r & Hr & Hlookup).
  exists r. split; [done|]. intros w y. rewrite Hlookup.
  unfold share_kanji. setoid_rewrite <- has_kanji_char.
  case_decide as Hw.
  - split.
    + intros (s & [= <-] & Hy).
      apply elem_of_difference in Hy as [Hy Hne].
      apply elem_of_gathered_separate in Hy. set_solver.
    + intros (_ & Hy & Hne & Hshare). eexists. split; [done|].
      apply elem_of_difference. split; [|set_solver].
      by apply elem_of_gathered_separate.
  - split; [by intros (s & [=] & _) | tauto].
Qed.

Lemma relate_words_related_iff_witness :
  ∃ r : index,
    relate_words Sample.words (separate_words Sample.words) = Some r ∧
    ∀ w y, (∃ s, r !! w = Some s ∧ y ∈ s) ↔
           w ∈ Sample.words ∧ y ∈ Sample.words ∧ y ≠ w ∧ share_kanji w y.
Proof.
  apply (relate_words_related_iff Sample.words). repeat constructor.
Defined.

(** X3: for any [components], [relate_words] returns exactly when every word
    is in a value of [components] whose key occurs in the word as a
    substring; the relation set of a word then holds the members, other than
    the word, of the values whose key occurs in it. *)
Theorem relate_words_any_components (words : list str) (components : index) :
  (is_Some (relate_words words components) ↔
   ∀ w, w ∈ words →
        ∃ k S, components !! k = Some S ∧ occurs_in k w ∧ w ∈ S) ∧
  (∀ r w y,
     relate_words words components = Some r → w ∈ words →
     (∃ s, r !! w = Some s ∧ y ∈ s) ↔
     y ≠ w ∧ ∃ k S, components !! k = Some S ∧ occurs_in k w ∧ y ∈ S).
Proof.
  setoid_rewrite <- elem_of_gathered_occurs. split.
  - rewrite <- Forall_forall.
    destruct (relate_words_cases words components)
      as [[Hall (r & -> & _)] | [Hnot ->]].
    + split; eauto.
    + split; [by intros [? [=]] | done].
  - intros r w y Hr Hw.
    destruct (relate_words_cases words components)
      as [[_ (r' & Hr' & Hlookup)] | [_ Hnone]]; [|congruence].
    assert (r' = r) as -> by congruence.
    rewrite Hlookup, decide_True by done. split.
    + intros (s & [= <-] & Hy). set_solver.
    + intros [Hne Hy]. eexists. split; [done|]. set_solver.
Qed.

Lemma relate_words_any_components_witness :
  is_Some (relate_words [Sample.kesa] {[ Sample.asa := {[ Sample.kesa ]} ]}).
Proof.
  apply (proj1 (relate_words_any_components _ _)).
  intros w ->%list_elem_of_singleton.
  exists Sample.asa, {[ Sample.kesa ]}. split_and!.
  - apply lookup_singleton_eq.
  - by exists [0x4ECA], [].
  - by apply elem_of_singleton.
Defined.

(** ** The component index *)

(** X4: the component index depends only on which words with a kanji occur
    in the input: their order, their repetitions and the words without kanji
    change nothing. *)
Theorem separate_words_same_elements (ws1 ws2 : list str) :
  (∀ w, has_kanji w = true → (w ∈ ws1 ↔ w ∈ ws2)) →
  separate_words ws1 = separate_words ws2.
Proof.
  intros Hsame.
  assert (Hin : ∀ c w, has_kanji [c] = true → c ∈ w → (w ∈ ws1 ↔ w ∈ ws2)).
  { intros c w Hc Hcw. apply Hsame, has_kanji_elem. eauto. }
  apply index_eq.
  - intros k. rewrite !is_Some_separate_words.
    split; intros (c & w & -> & Hc & Hcw & Hw);
      exists c, w; split_and!; try done; by apply (Hin c w).
  - intros k w. rewrite !elem_of_separate_words.
    split; intros (c & -> & Hc & Hcw & Hw);
      exists c; split_and!; try done; by apply (Hin c w).
Qed.

Lemma separate_words_same_elements_witness :
  separate_words [Sample.kesa; Sample.kana; Sample.konban; Sample.kesa] =
  separate_words [Sample.konban; Sample.kesa].
Proof.
  apply separate_words_same_elements.
  intros w Hw. rewrite !elem_of_cons, !elem_of_nil.
  split; [|tauto].
  intros [-> | [-> | [-> | [-> | []]]]]; try tauto.
  exfalso. revert Hw. by vm_compute.
Defined.

(** X5: the component index of a concatenation is the key-wise union of the
    component indexes of the two parts. *)
Theorem separate_words_app (ws1 ws2 : list str) :
  separate_words (ws1 ++ ws2) =
  union_with (λ s1 s2, Some (s1 ∪ s2)) (separate_words ws1) (separate_words ws2).
Proof.
  apply index_eq.
  - intros k. rewrite lookup_union_with, !is_Some_separate_words.
    setoid_rewrite elem_of_app. split.
    + intros (c & w & -> & Hc & Hcw & [Hw | Hw]).
      * destruct (proj2 (is_Some_separate_words ws1 [c])) as [S1 ->];
          [by exists c, w|].
        by destruct (separate_words ws2 !! [c]).
      * destruct (proj2 (is_Some_separate_words ws2 [c])) as [S2 ->];
          [by exists c, w|].
        by destruct (separate_words ws1 !! [c]).
    + intros Hsome.
      destruct (separate_words ws1 !! k) as [S1|] eqn:H1.
      * destruct (proj1 (is_Some_separate_words ws1 k))
          as (c & w & -> & ? & ? & ?); [by eauto|].
        exists c, w. tauto.
      * destruct (separate_words ws2 !! k) as [S2|] eqn:H2;
          [|by destruct Hsome].
        destruct (proj1 (is_Some_separate_words ws2 k))
          as (c & w & -> & ? & ? & ?); [by eauto|].
        exists c, w. tauto.
  - intros k w. rewrite elem_of_separate_words.
    setoid_rewrite elem_of_app.
    pose proof (elem_of_separate_words ws1 k w) as H1.
    pose proof (elem_of_separate_words ws2 k w) as H2.
    unfold compounds_at in *. rewrite lookup_union_with.
    destruct (separate_words ws1 !! k) as [S1|],
             (separate_words ws2 !! k) as [S2|]; simpl in *;
      rewrite ?elem_of_union; rewrite ?H1, ?H2;
      rewrite ?elem_of_empty in H1; rewrite ?elem_of_empty in H2;
      naive_solver.
Qed.

(** ** main *)

Lemma sort_words_perm (words : list str) : sort_words words ≡ₚ words.
Proof. apply merge_sort_Permutation. Qed.

Lemma elem_of_sort_words (words : list str) (w : str) :
  w ∈ sort_words words ↔ w ∈ words.
Proof. by rewrite sort_words_perm. Qed.

Lemma elem_of_sorted (s : gset str) (w : str) : w ∈ sorted s ↔ w ∈ s.
Proof. unfold sorted. by rewrite elem_of_sort_words, elem_of_elements. Qed.

Lemma NoDup_sorted (s : gset str) : NoDup (sorted s).
Proof. unfold sorted. rewrite sort_words_perm. apply NoDup_elements. Qed.

Lemma separate_words_ext (ws1 ws2 : list str) :
  (∀ w, w ∈ ws1 ↔ w ∈ ws2) → separate_words ws1 = separate_words ws2.
Proof.
  intros Hsame. apply index_eq.
  - intros k. rewrite !is_Some_separate_words. by setoid_rewrite Hsame.
  - intros k w. rewrite !elem_of_separate_words. by setoid_rewrite Hsame.
Qed.

Lemma main_is_Some (words : list str) :
  is_Some (main words) ↔ Forall (λ w, has_kanji w = true) words.
Proof.
  unfold main.
  rewrite <- (sort_words_perm words) at 3.
  rewrite <- Forall_self_gathered.
  destruct (relate_words_cases (sort_words words)
              (separate_words (sort_words words)))
    as [[Hall (r & -> & _)] | [Hnot ->]]; simpl.
  - split; eauto.
  - split; [by intros [? [=]] | done].
Qed.

(** X6: [main] returns a result exactly when every word has a kanji; on the
    words kept by the readers' filter it always returns. *)
Theorem main_returns_iff :
  (∀ words, is_Some (main words) ↔ Forall (λ w, has_kanji w = true) words) ∧
  (∀ raw, is_Some (main (kanji_words raw))).
Proof.
  split; [apply main_is_Some|].
  intros raw. apply main_is_Some, Forall_forall.
  unfold kanji_words. by intros w [Hw _]%list_elem_of_filter.
Qed.

Lemma main_returns_iff_witness :
  is_Some (main Sample.words).
Proof.
  apply (proj2 (proj1 main_returns_iff Sample.words)). repeat constructor.
Defined.

Lemma main_Some_inv (words : list str) (o : output) :
  main words = Some o →
  Forall (λ w, has_kanji w = true) words ∧
  ∃ r : index,
    relate_words (sort_words words) (separate_words (sort_words words)) = Some r ∧
    o = Output (sorted <$> separate_words (sort_words words)) (sorted <$> r).
Proof.
  intros Hmain. split; [apply main_is_Some; eauto|].
  unfold main in Hmain.
  destruct (relate_words _ _) as [r|]; [|done].
  exists r. split; [done|]. by injection Hmain.
Qed.

(** X7: in the result of [main], every key of the components is one kanji and
    its value lists, in increasing order and without repetition, the input
    words that contain it; every key of the related words is an input word and
    its value lists, in increasing order and without repetition, the other
    input words that share a kanji with it; every input word is such a key. *)
Theorem main_output_contents (words : list str) (o : output) :
  main words = Some o →
  (∀ k l, out_components o !! k = Some l →
     ∃ c, k = [c] ∧ in_kanji_range c ∧ l ≠ [] ∧
          Sorted str_le l ∧ NoDup l ∧
          ∀ w, w ∈ l ↔ w ∈ words ∧ c ∈ w) ∧
  (∀ w l, out_related_words o !! w = Some l →
     w ∈ words ∧ Sorted str_le l ∧ NoDup l ∧
     ∀ y, y ∈ l ↔ y ∈ words ∧ y ≠ w ∧ share_kanji w y) ∧
  dom (out_related_words o) = list_to_set words.
Proof.
  intros (Hall & r & Hr & ->)%main_Some_inv. simpl.
  assert (Hall' : Forall (λ w, has_kanji w = true) (sort_words words))
    by (by rewrite sort_words_perm).
  apply Forall_self_gathered, relate_words_Some in Hall'
    as (r' & Hr' & Hlookup).
  assert (r' = r) as -> by congruence.
  split_and!.
  - intros k l (S & <- & HS)%lookup_fmap_Some.
    destruct (separate_words_lookup_Some _ _ _ HS) as (c & -> & Hc & Hmem).
    exists c. split_and!; [done | by apply has_kanji_char | |
                           apply sorted_Sorted | apply NoDup_sorted |].
    + destruct (proj1 (is_Some_separate_words (sort_words words) [c]))
        as (c' & w & [= <-] & _ & Hcw & Hw); [by eauto|].
      intros Hnil. assert (Hin : w ∈ sorted S) by (by apply elem_of_sorted, Hmem).
      rewrite Hnil in Hin. by apply elem_of_nil in Hin.
    + intros w. rewrite elem_of_sorted, Hmem, elem_of_sort_words. tauto.
  - intros w l (s & <- & Hs)%lookup_fmap_Some.
    rewrite Hlookup in Hs. case_decide as Hw; [|done].
    injection Hs as <-. rewrite elem_of_sort_words in Hw.
    split_and!; [done | apply sorted_Sorted | apply NoDup_sorted |].
    intros y.
    rewrite elem_of_sorted, elem_of_difference, elem_of_gathered_separate,
      elem_of_singleton, elem_of_sort_words.
    unfold share_kanji. setoid_rewrite <- has_kanji_char. tauto.
  - rewrite dom_fmap_L. apply set_eq. intros w.
    rewrite elem_of_dom, Hlookup, elem_of_list_to_set.
    case_decide as Hw; rewrite elem_of_sort_words in Hw;
      split; eauto; done.
Qed.

Lemma main_output_contents_witness :
  ∃ o, main Sample.words = Some o ∧
       dom (out_related_words o) = list_to_set Sample.words.
Proof.
  destruct (proj2 (main_is_Some Sample.words)) as [o Ho];
    [repeat constructor|].
  exists o. split; [exact Ho|].
  exact (proj2 (proj2 (main_output_contents _ _ Ho))).
Defined.

(** X8: the result of [main] depends only on which words occur in the input,
    not on their order or on how often each occurs. *)
Theorem main_same_elements (ws1 ws2 : list str) :
  (∀ w, w ∈ ws1 ↔ w ∈ ws2) → main ws1 = main ws2.
Proof.
  intros Hsame.
  assert (Hsorted : ∀ w, w ∈ sort_words ws1 ↔ w ∈ sort_words ws2).
  { intros w. by rewrite !elem_of_sort_words. }
  unfold main.
  rewrite (separate_words_ext _ _ Hsorted).
  by rewrite (relate_words_same_elements _ _ _ Hsorted).
Qed.

Lemma main_same_elements_witness :
  main [Sample.kesa; Sample.konban; Sample.kesa] =
  main [Sample.konban; Sample.kesa].
Proof.
  apply main_same_elements. intros w.
  rewrite !elem_of_cons, !elem_of_nil. tauto.
Defined.

(** ** The delimiter check *)

Lemma japanese_class_matches (c : N) :
  existsb (λ cls, Re.class_matches cls c) japanese_class = true ↔
  in_japanese_class c.
Proof.
  unfold japanese_class, in_japanese_class, in_kanji_range. simpl.
  rewrite !orb_true_iff, !class_matches_true. simpl.
  split; [intros [? | [? | [? | [=]]]] | intros [? | [? | ?]]]; tauto.
Qed.

Lemma search_ranges_is_Some (ranges : list Re.char_class) (s : str) :
  is_Some (search_ranges ranges s) ↔
  Exists (λ c, existsb (λ cls, Re.class_matches cls c) ranges = true) s.
Proof.
  induction s as [|c s IH]; simpl.
  - rewrite Exists_nil. split; [intros [? [=]] | tauto].
  - rewrite Exists_cons.
    destruct (existsb (λ cls, Re.class_matches cls c) ranges) eqn:Hc.
    + split; eauto.
    + rewrite fmap_is_Some, IH. split; [tauto | intros [[=] | ?]; tauto].
Qed.

Lemma delimiter_is_japanese_Some (s : str) :
  delimiter_is_japanese (Some s) = true ↔ Exists in_japanese_class s.
Proof.
  assert (Hm : Exists in_japanese_class s ↔ is_Some (search_ranges japanese_class s)).
  { rewrite search_ranges_is_Some. apply Exists_proper; [|done].
    intros c. symmetry. apply japanese_class_matches. }
  rewrite Hm. unfold delimiter_is_japanese. destruct s as [|c s].
  - split; [discriminate | by intros [? [=]]].
  - destruct (search_ranges japanese_class (c :: s)); split; eauto; done.
Qed.

(** X9: the delimiter check of [main] fires exactly for a delimiter that is
    given and contains a character from U+4E00 to U+9FAF, from U+3041 to
    U+3093 or from U+30A1 to U+30F3; so every delimiter with a kanji is
    refused, and no delimiter and the empty delimiter pass. *)
Theorem delimiter_check :
  (∀ delimiter,
     delimiter_is_japanese delimiter = true ↔
     ∃ s c, delimiter = Some s ∧ c ∈ s ∧ in_japanese_class c) ∧
  (∀ s, has_kanji s = true → delimiter_is_japanese (Some s) = true) ∧
  delimiter_is_japanese None = false ∧
  delimiter_is_japanese (Some []) = false.
Proof.
  split_and!; [| |done..].
  - intros [s|].
    + rewrite delimiter_is_japanese_Some, Exists_exists. split.
      * intros (c & ? & ?). by exists s, c.
      * intros (s' & c & [= <-] & ? & ?). by exists c.
    + split; [discriminate | by intros (? & ? & [=] & _)].
  - intros s Hs. apply delimiter_is_japanese_Some.
    apply has_kanji_Exists in Hs. eapply Exists_impl; [done|].
    intros c Hc. by left.
Qed.

Lemma delimiter_check_witness :
  delimiter_is_japanese (Some Sample.kesa) = true.
Proof. by apply (proj1 (proj2 delimiter_check) Sample.kesa). Defined.

(** ** The readers *)

Lemma read_from_jpdb_filter (cards : list card) :
  omap id (filter (λ w, has_kanji_opt w = true) (spelling <$> cards)) =
  kanji_words (omap spelling cards).
Proof.
  unfold kanji_words. induction cards as [|[sp] cards IH]; [done|].
  destruct sp as [w|]; csimpl.
  - rewrite !filter_cons. simpl.
    destruct (decide (has_kanji w = true)); csimpl; by rewrite IH.
  - rewrite filter_cons. simpl. apply IH.
Qed.

(** X10: [read_from_jpdb] leaves with status 1 when the export has no
    jp-en cards; otherwise it returns, in the order of the cards, the
    spellings that are present and have a kanji, skipping the cards without a
    spelling. *)
Theorem read_from_jpdb_words :
  read_from_jpdb None = inl (Exit 1) ∧
  ∀ cards : list card,
    read_from_jpdb (Some cards) = inr (kanji_words (omap spelling cards)) ∧
    Forall (λ w, has_kanji w = true) (kanji_words (omap spelling cards)) ∧
    ∀ w, w ∈ kanji_words (omap spelling cards) ↔
         Card (Some w) ∈ cards ∧ has_kanji w = true.
Proof.
  split; [done|]. intros cards. split_and!.
  - unfold read_from_jpdb. by rewrite read_from_jpdb_filter.
  - apply Forall_forall. unfold kanji_words.
    by intros w [? _]%list_elem_of_filter.
  - intros w. unfold kanji_words.
    rewrite list_elem_of_filter, list_elem_of_omap. split.
    + intros (Hw & [sp] & Hc & Heq). simpl in Heq. by subst.
    + intros [Hc Hw]. split; [done|]. by exists (Card (Some w)).
Qed.

Lemma is_space_not_kanji (c : N) : is_space c = true → ¬ in_kanji_range c.
Proof.
  unfold is_space, in_kanji_range. intros Hc [Hlo Hhi].
  repeat (apply orb_true_iff in Hc as [Hc | Hc]);
    rewrite ?andb_true_iff, ?N.leb_le, ?N.eqb_eq in Hc; lia.
Qed.

Lemma split_whitespace_concat (cur s : str) :
  concat (split_whitespace_from cur s) =
  cur ++ filter (λ c, is_space c = false) s.
Proof.
  revert cur. induction s as [|c s IH]; intros cur; simpl.
  - destruct cur; simpl; by rewrite ?app_nil_r.
  - rewrite filter_cons. destruct (is_space c) eqn:Hc.
    + rewrite decide_False by done.
      destruct cur; simpl; by rewrite IH.
    + rewrite decide_True by done. by rewrite IH, <- app_assoc.
Qed.

Lemma split_whitespace_tokens (cur s : str) :
  Forall (λ c, is_space c = false) cur →
  Forall (λ w, w ≠ [] ∧ Forall (λ c, is_space c = false) w)
         (split_whitespace_from cur s).
Proof.
  revert cur. induction s as [|c s IH]; intros cur Hcur; simpl.
  - destruct cur; constructor; [by split | constructor].
  - destruct (is_space c) eqn:Hc.
    + destruct cur; [by apply IH|].
      constructor; [by split | by apply IH].
    + apply IH, Forall_app. split; [done|]. by constructor.
Qed.

Lemma split_whitespace_occurs (pre cur s : str) :
  Forall (λ w, occurs_in w (pre ++ cur ++ s)) (split_whitespace_from cur s).
Proof.
  revert pre cur. induction s as [|c s IH]; intros pre cur; simpl.
  - destruct cur as [|a cur]; constructor; [|constructor]. by exists pre, [].
  - destruct (is_space c).
    + destruct cur as [|a cur].
      * replace (pre ++ [] ++ c :: s) with ((pre ++ [c]) ++ [] ++ s)
          by (by rewrite <- app_assoc).
        apply IH.
      * constructor; [by exists pre, (c :: s)|].
        replace (pre ++ (a :: cur) ++ c :: s)
          with ((pre ++ (a :: cur) ++ [c]) ++ [] ++ s)
          by (by rewrite <- !app_assoc).
        apply IH.
    + replace (pre ++ cur ++ c :: s) with (pre ++ (cur ++ [c]) ++ s)
        by (by rewrite <- !app_assoc).
      apply IH.
Qed.

Lemma kanji_of_kanji_words (tokens : list str) :
  filter in_kanji_range (concat (kanji_words tokens)) =
  filter in_kanji_range (concat tokens).
Proof.
  unfold kanji_words. induction tokens as [|w tokens IH]; simpl; [done|].
  rewrite filter_cons, filter_app.
  destruct (decide (has_kanji w = true)) as [Hw | Hw]; simpl.
  - by rewrite filter_app, IH.
  - rewrite IH.
    assert (filter in_kanji_range w = []) as ->; [|done].
    apply elem_of_nil_inv. intros c [Hc Hcw]%list_elem_of_filter.
    apply Hw, has_kanji_Exists, Exists_exists. eauto.
Qed.

(** X11: with no delimiter, [read_from_txt] returns words that all have a
    kanji, contain no whitespace and are substrings of the text, and the
    kanji of the words, read in order, are the kanji of the text: none is
    lost, none is added. *)
Theorem read_from_txt_whitespace (text : str) :
  ∃ words,
    read_from_txt text None = inr words ∧
    Forall (λ w, has_kanji w = true ∧ Forall (λ c, is_space c = false) w ∧
                 occurs_in w text) words ∧
    filter in_kanji_range (concat words) = filter in_kanji_range text.
Proof.
  exists (kanji_words (split_whitespace_from [] text)).
  split_and!; [done | |].
  - apply Forall_forall. intros w [Hw Hin]%list_elem_of_filter.
    split_and!; [done | |].
    + pose proof (split_whitespace_tokens [] text (Forall_nil_2 _)) as Htok.
      by apply (proj1 (Forall_forall _ _) Htok w).
    + pose proof (split_whitespace_occurs [] [] text) as Hocc.
      by apply (proj1 (Forall_forall _ _) Hocc w).
  - rewrite kanji_of_kanji_words, split_whitespace_concat. simpl.
    induction text as [|c text IH]; [done|].
    rewrite !filter_cons.
    destruct (decide (is_space c = false)) as [Hc | Hc].
    + rewrite filter_cons. by rewrite IH.
    + rewrite IH, decide_False; [done|].
      apply is_space_not_kanji. by destruct (is_space c).
Qed.


Lemma split_sep_skip (sep : str) (n : nat) (cur s : str) :
  (n ≤ length s)%nat →
  split_sep_from sep n cur s = split_sep_from sep 0 cur (drop n s).
Proof.
  revert s. induction n as [|n IH]; intros s Hn; [done|].
  destruct s as [|c s]; simpl in *; [lia|]. apply IH. lia.
Qed.

Lemma split_sep_cons (sep : str) (c : N) (cur s : str) :
  split_sep_from sep 0 cur (c :: s) =
    if bool_decide (sep `prefix_of` c :: s)
    then cur :: split_sep_from sep (length sep - 1) [] s
    else split_sep_from sep 0 (cur ++ [c]) s.
Proof. done. Qed.

Lemma split_sep_found (sep rest cur : str) :
  sep ≠ [] →
  split_sep_from sep 0 cur (sep ++ rest) = cur :: split_sep_from sep 0 [] rest.
Proof.
  intros Hsep. destruct sep as [|c sep]; [done|].
  change ((c :: sep) ++ rest) with (c :: (sep ++ rest)).
  rewrite split_sep_cons, bool_decide_eq_true_2 by (by exists rest).
  f_equal. rewrite split_sep_skip.
  - simpl. by rewrite Nat.sub_0_r, drop_app_length.
  - simpl. rewrite length_app. lia.
Qed.

Lemma split_sep_nonempty (sep : str) (n : nat) (cur s : str) :
  split_sep_from sep n cur s ≠ [].
Proof.
  revert n cur. induction s as [|c s IH]; intros n cur; simpl; [done|].
  destruct n; [|apply IH]. case_bool_decide; [done | apply IH].
Qed.

Lemma str_join_cons (sep p : str) (ps : list str) :
  ps ≠ [] → str_join sep (p :: ps) = p ++ sep ++ str_join sep ps.
Proof. by destruct ps. Qed.

Lemma split_sep_join (sep : str) (n : nat) (s cur : str) :
  (length s ≤ n)%nat → sep ≠ [] →
  str_join sep (split_sep_from sep 0 cur s) = cur ++ s.
Proof.
  intros Hn Hsep. revert s cur Hn.
  induction n as [|n IH]; intros [|c s] cur Hn; simpl in Hn;
    try lia; try (simpl; by rewrite app_nil_r).
  rewrite split_sep_cons. case_bool_decide as Hpre.
  - destruct Hpre as [rest Hrest].
    pose proof (split_sep_found sep rest cur Hsep) as Hfound.
    rewrite <- Hrest, split_sep_cons, bool_decide_eq_true_2 in Hfound
      by (by exists rest).
    rewrite Hfound, str_join_cons by apply split_sep_nonempty.
    rewrite IH, Hrest; [done|].
    apply (f_equal length) in Hrest. rewrite length_app in Hrest.
    simpl in Hrest. destruct sep; [done|]. simpl in Hrest. lia.
  - rewrite IH by lia. by rewrite <- app_assoc.
Qed.

Lemma no_start_occurs (sep cur s : str) :
  sep ≠ [] → no_start sep cur s → ¬ occurs_in sep cur.
Proof.
  intros Hsep Hno (pre & post & ->).
  apply (Hno pre (sep ++ post)); [done | by destruct sep |].
  exists (post ++ s). by rewrite <- app_assoc.
Qed.

Lemma no_start_snoc (sep cur s : str) (c : N) :
  no_start sep cur (c :: s) → ¬ sep `prefix_of` c :: s →
  no_start sep (cur ++ [c]) s.
Proof.
  intros Hno Hc pre post Heq Hpost.
  destruct post as [|a post _] using rev_ind; [done|].
  rewrite app_assoc in Heq. apply app_inj_tail in Heq as [-> <-].
  rewrite <- app_assoc. simpl.
  destruct post as [|b post]; [done|].
  by apply (Hno pre (b :: post)).
Qed.

Lemma split_sep_pieces (sep : str) (n : nat) (s cur : str) :
  (length s ≤ n)%nat → sep ≠ [] → no_start sep cur s →
  Forall (λ p, ¬ occurs_in sep p) (split_sep_from sep 0 cur s).
Proof.
  intros Hn Hsep. revert s cur Hn.
  induction n as [|n IH]; intros [|c s] cur Hn Hno; simpl in Hn; try lia.
  - simpl. constructor; [|constructor]. by apply (no_start_occurs _ _ []).
  - simpl. constructor; [|constructor]. by apply (no_start_occurs _ _ []).
  - rewrite split_sep_cons. case_bool_decide as Hpre.
    + destruct Hpre as [rest Hrest].
      pose proof (split_sep_found sep rest cur Hsep) as Hfound.
      rewrite <- Hrest, split_sep_cons, bool_decide_eq_true_2 in Hfound
        by (by exists rest).
      rewrite Hfound. constructor.
      * by apply (no_start_occurs _ _ (c :: s)).
      * apply IH.
        -- apply (f_equal length) in Hrest. rewrite length_app in Hrest.
           simpl in Hrest. destruct sep; [done|]. simpl in Hrest. lia.
        -- intros pre post Heq Hpost. symmetry in Heq.
           apply app_eq_nil in Heq as [_ ->]. done.
    + apply IH; [lia|]. by apply no_start_snoc.
Qed.

(** X12: with a delimiter, [read_from_txt] raises [ValueError] when it is
    empty; otherwise the text is cut into pieces that joined by the delimiter
    give the text back, none of which contains the delimiter, and the words
    returned are the pieces that have a kanji, in order. *)
Theorem read_from_txt_delimiter (text : str) :
  read_from_txt text (Some []) = inl ValueError ∧
  ∀ (c : N) (sep : str),
    ∃ pieces,
      str_split text (Some (c :: sep)) = inr pieces ∧
      str_join (c :: sep) pieces = text ∧
      Forall (λ p, ¬ occurs_in (c :: sep) p) pieces ∧
      read_from_txt text (Some (c :: sep)) = inr (kanji_words pieces).
Proof.
  split; [done|]. intros c sep.
  exists (split_sep_from (c :: sep) 0 [] text). split_and!; [done | | | done].
  - by rewrite (split_sep_join _ (length text)).
  - apply (split_sep_pieces _ (length text)); [done..|].
    intros pre post Heq Hpost. symmetry in Heq.
    apply app_eq_nil in Heq as [_ ->]. done.
Qed.

(** ** main, from the file to the saved object *)


